(** * brailleify: bytes shown as Braille cells

    A shallow embedding of [brailleify.py] and the properties of its four
    functions [shuffle], [unshuffle], [brailleify] and [unbrailleify].

    Python integers are unbounded, so they are modelled as [Z]; the
    operators [&], [|], [<<] and [>>] on them are [Z.land], [Z.lor],
    [Z.shiftl] and [Z.shiftr] (two's complement on negative numbers, as in
    Python).  A Python [str] is a sequence of code points and is modelled as
    a list of them; [bytes] is a list of integers that the constructor
    checks to be in [range(256)].  The built-ins [chr] and [bytes] can
    raise [ValueError], which is kept as an explicit result. *)

From Stdlib Require Import ZArith List String Ascii Bool Lia Btauto Permutation.
Import ListNotations.
Open Scope Z_scope.

(** ** Literals *)

Module Literal.

(** [bin "1000_1000"] reads a binary literal the way Python reads
    [0b_1000_1000]: underscores only group the digits. *)
Fixpoint bin_from (acc : Z) (s : string) : Z :=
  match s with
  | EmptyString => acc
  | String "0"%char r => bin_from (2 * acc) r
  | String "1"%char r => bin_from (2 * acc + 1) r
  | String _ r => bin_from acc r
  end.

Definition bin (s : string) : Z := bin_from 0 s.

Definition octet (a : ascii) : Z := Z.of_N (N_of_ascii a).

Definition is_cont (x : Z) : bool := (0x80 <=? x) && (x <? 0xC0).

Definition cont (x : Z) : Z := Z.land x 0x3F.

(** The text of a literal in this file is UTF-8; [utf8] reads it back into
    the code points that Python sees in the same literal ([None] when the
    text is not UTF-8). *)
Fixpoint utf8 (s : string) : option (list Z) :=
  match s with
  | EmptyString => Some []
  | String a r =>
    let x := octet a in
    if x <? 0x80 then option_map (cons x) (utf8 r)
    else if x <? 0xC0 then None
    else if x <? 0xE0 then
      match r with
      | String b r1 =>
        if is_cont (octet b)
        then option_map
               (cons (Z.lor (Z.shiftl (Z.land x 0x1F) 6) (cont (octet b))))
               (utf8 r1)
        else None
      | _ => None
      end
    else if x <? 0xF0 then
      match r with
      | String b (String c r2) =>
        if is_cont (octet b) && is_cont (octet c)
        then option_map
               (cons (Z.lor (Z.shiftl (Z.land x 0x0F) 12)
                       (Z.lor (Z.shiftl (cont (octet b)) 6) (cont (octet c)))))
               (utf8 r2)
        else None
      | _ => None
      end
    else if x <? 0xF8 then
      match r with
      | String b (String c (String d r3)) =>
        if is_cont (octet b) && is_cont (octet c) && is_cont (octet d)
        then option_map
               (cons (Z.lor (Z.shiftl (Z.land x 0x07) 18)
                       (Z.lor (Z.shiftl (cont (octet b)) 12)
                         (Z.lor (Z.shiftl (cont (octet c)) 6)
                                (cont (octet d))))))
               (utf8 r3)
        else None
      | _ => None
      end
    else None
  end.

Definition text (s : string) : list Z :=
  match utf8 s with
  | Some t => t
  | None => []
  end.

End Literal.

(** ** Python values and built-ins *)

Inductive exn : Type :=
| ValueError.

Inductive result (A : Type) : Type :=
| Ok (a : A)
| Raise (e : exn).

Arguments Ok {A} a.
Arguments Raise {A} e.

Definition bind {A B : Type} (m : result A) (k : A -> result B) : result B :=
  match m with
  | Ok a => k a
  | Raise e => Raise e
  end.

Notation "x <- m ;; k" := (bind m (fun x => k))
  (at level 61, m at next level, right associativity).

(** Running a generator expression to its end: the items are produced from
    left to right and the first exception stops the run. *)
Fixpoint collect {A B : Type} (f : A -> result B) (xs : list A)
  : result (list B) :=
  match xs with
  | [] => Ok []
  | x :: r => y <- f x ;; ys <- collect f r ;; Ok (y :: ys)
  end.

(** A character is its code point; a [str] is the sequence of them. *)
Definition char : Type := Z.
Definition str : Type := list char.

Definition is_code_point (i : Z) : bool := (0 <=? i) && (i <? 0x110000).

(** [chr(i)]: a string of length one, [ValueError] outside
    [range(0x110000)]. *)
Definition chr (i : Z) : result str :=
  if is_code_point i then Ok [i] else Raise ValueError.

(** [ord(c)] for a character obtained by iterating over a string. *)
Definition ord (c : char) : Z := c.

(** [sep.join(parts)]. *)
Fixpoint join (sep : str) (parts : list str) : str :=
  match parts with
  | [] => []
  | [p] => p
  | p :: r => p ++ sep ++ join sep r
  end.

Definition is_byte (b : Z) : bool := (0 <=? b) && (b <? 256).

(** [bytes(ints)]: every item has to be in [range(256)]. *)
Definition bytes (ints : list Z) : result (list Z) :=
  collect (fun i => if is_byte i then Ok i else Raise ValueError) ints.

(** ** The program *)

Import Literal.

Definition BRAILLE_START_POINT : Z := 0x2800.

Definition shuffle (byte : Z) : Z :=
  Z.lor (Z.lor (Z.lor (Z.lor (Z.lor (Z.lor
    (Z.shiftl (Z.land byte (bin "00000001")) 7)
    (Z.shiftl (Z.land byte (bin "00000010")) 4))
    (Z.shiftl (Z.land byte (bin "00010100")) 2))
    (Z.shiftr (Z.land byte (bin "00100000")) 3))
    (Z.shiftr (Z.land byte (bin "01000000")) 5))
    (Z.shiftr (Z.land byte (bin "10000000")) 7))
    (Z.land byte (bin "00001000")).

Definition unshuffle (byte : Z) : Z :=
  Z.lor (Z.lor (Z.lor (Z.lor (Z.lor (Z.lor
    (Z.shiftr (Z.land byte (bin "10000000")) 7)
    (Z.shiftr (Z.land byte (bin "00100000")) 4))
    (Z.shiftr (Z.land byte (bin "01010000")) 2))
    (Z.shiftl (Z.land byte (bin "00000100")) 3))
    (Z.shiftl (Z.land byte (bin "00000010")) 5))
    (Z.shiftl (Z.land byte (bin "00000001")) 7))
    (Z.land byte (bin "00001000")).

Definition brailleify (data : list Z) : result str :=
  parts <- collect (fun byte => chr (BRAILLE_START_POINT + shuffle byte)) data ;;
  Ok (join [] parts).

Definition unbrailleify (braille : str) : result (list Z) :=
  bytes (map (fun c => unshuffle (ord c - BRAILLE_START_POINT)) braille).

(** ** Vocabulary of the specification *)

(** A character of the Braille pattern block, U+2800 to U+28FF. *)
Definition in_block (c : char) : bool :=
  (0x2800 <=? ord c) && (ord c <=? 0x28FF).

(** [f] moves the bit at index [fst p] of its argument to index [snd p] of
    its result (index 0 is the least significant bit). *)
Definition moves_bit (f : Z -> Z) (b : Z) (p : Z * Z) : Prop :=
  Z.testbit (f b) (snd p) = Z.testbit b (fst p).

(** The same as a test. *)
Definition moves_bitb (f : Z -> Z) (b : Z) (p : Z * Z) : bool :=
  Bool.eqb (Z.testbit (f b) (snd p)) (Z.testbit b (fst p)).

(** The bit mapping as the specification's table prints it. *)
Definition spec_table : list (Z * Z) :=
  [(0, 7); (1, 4); (2, 6); (4, 5); (5, 2); (6, 1); (7, 0); (3, 3)].

(** The bit mapping that the masks and shifts of [shuffle] perform, also
    the one of the module's docstring (87654321 to 15234678). *)
Definition shuffle_table : list (Z * Z) :=
  [(0, 7); (1, 5); (2, 4); (4, 6); (5, 2); (6, 1); (7, 0); (3, 3)].

(** All the values of a byte, in increasing order. *)
Definition all_bytes : list Z := map Z.of_nat (seq 0 256).

(** The bit mapping of [unshuffle]: [shuffle_table] read from right to
    left. *)
Definition unshuffle_table : list (Z * Z) :=
  [(7, 0); (5, 1); (4, 2); (6, 4); (2, 5); (1, 6); (0, 7); (3, 3)].

(** The layout of the module's docstring, as pairs (dot, bit), both counted
    from 1 as the docstring does: the dots of a cell are numbered
    1 4 / 2 5 / 3 6 / 7 8, row by row, and are to show the bits
    8 4 / 7 3 / 6 2 / 5 1 of the data. *)
Definition docstring_layout : list (Z * Z) :=
  [(1, 8); (4, 4); (2, 7); (5, 3); (3, 6); (6, 2); (7, 5); (8, 1)].

(** Dot number [fst p] of the character [c] is raised exactly when bit
    number [snd p] of [x] is set; dot [k] of a Braille character is bit [k]
    of the low byte of its code point, the bits numbered 87654321. *)
Definition shows_bit (c : char) (x : Z) (p : Z * Z) : Prop :=
  Z.testbit (ord c) (fst p - 1) = Z.testbit x (snd p - 1).

(** How many of the eight low bits of [x] are set. *)
Definition ones (x : Z) : nat :=
  List.length (filter (Z.testbit x) [0; 1; 2; 3; 4; 5; 6; 7]).

(** ** The animation of the [__main__] block *)

Module Demo.

(** What the loop does to the outside: text written to the standard output
    and pauses.  The two pause lengths are floating-point products and are
    kept as the expressions that the source passes to [time.sleep]. *)
Inductive pause : Type :=
| frame_times_blur
| frame_times_one_minus_blur.

Inductive event : Type :=
| Write (out : str)
| Sleep (p : pause).

(** A run: the events it has caused, and its value or the exception that
    ended it. *)
Definition io (A : Type) : Type := (list event * result A)%type.

Definition ret {A : Type} (a : A) : io A := ([], Ok a).

Definition lift {A : Type} (r : result A) : io A := ([], r).

Definition emit (e : event) : io unit := ([e], Ok tt).

Definition io_bind {A B : Type} (m : io A) (k : A -> io B) : io B :=
  match m with
  | (es, Ok a) => let (es', r) := k a in (es ++ es', r)
  | (es, Raise e) => (es, Raise e)
  end.

Notation "x <~ m ;; k" := (io_bind m (fun x => k))
  (at level 61, m at next level, right associativity).

(** [print(s, end=e)]. *)
Definition print (s e : str) : io unit := emit (Write (s ++ e)).

(** [time.sleep(p)]. *)
Definition sleep (p : pause) : io unit := emit (Sleep p).

(** The string ['\r']. *)
Definition CR : str := [0x0D].

Definition seq : list Z :=
  [ bin "1000_1100";
    bin "0000_1110";
    bin "0000_0111";
    bin "0001_0011";
    bin "0011_0001";
    bin "0111_0000";
    bin "1110_0000";
    bin "1100_1000" ].

(** The body of the [for] loop, with [prev] and [cell] as they are bound
    when it starts; the value is [prev] as the body leaves it. *)
Definition body (prev cell : Z) : io Z :=
  blurred <~ lift (brailleify [Z.lor cell prev]) ;;
  _ <~ print blurred CR ;;
  _ <~ sleep frame_times_blur ;;
  sharp <~ lift (brailleify [cell]) ;;
  _ <~ print sharp CR ;;
  _ <~ sleep frame_times_one_minus_blur ;;
  ret cell.

(** The [for] loop over the items [cells] that its iterator hands out. *)
Fixpoint loop (prev : Z) (cells : list Z) : io Z :=
  match cells with
  | [] => ret prev
  | cell :: r => prev' <~ body prev cell ;; loop prev' r
  end.

(** The first [n] items of [itertools.cycle]: the items of the iterable
    once, each of them saved, and then the saved ones over and over; [cur]
    is what is left of the pass under way.  Nothing is saved from an empty
    iterable and the iterator ends at once. *)
Fixpoint replay {A : Type} (saved cur : list A) (n : nat) : list A :=
  match n with
  | O => []
  | S n' =>
    match cur with
    | x :: r => x :: replay saved r n'
    | [] =>
      match saved with
      | [] => []
      | x :: r => x :: replay saved r n'
      end
    end
  end.

Definition cycle {A : Type} (xs : list A) (n : nat) : list A :=
  replay xs xs n.

(** The program up to the end of the [n]-th pass through the loop, which
    has no exit of its own. *)
Definition main (n : nat) : io Z := loop 0 (cycle seq n).

(** What one pass writes for [cell] after [prev]: the two cells laid over
    each other, then [cell] alone. *)
Definition frames (prev cell : Z) : list event :=
  [ Write [0x2800 + Z.lor (shuffle cell) (shuffle prev); 0x0D];
    Sleep frame_times_blur;
    Write [0x2800 + shuffle cell; 0x0D];
    Sleep frame_times_one_minus_blur ].

End Demo.

(** ** Generators, [join] and [bytes] *)

Section Generators.

Context {A B : Type}.

Lemma collect_pure (f : A -> result B) (g : A -> B) (xs : list A) :
  (forall x, In x xs -> f x = Ok (g x)) ->
  collect f xs = Ok (map g xs).
Proof.
  induction xs as [|x r IH]; intros Hf; simpl.
  - reflexivity.
  - rewrite (Hf x (or_introl eq_refl)); simpl.
    rewrite IH by (intros y Hy; apply Hf; right; exact Hy).
    reflexivity.
Qed.

End Generators.

Lemma join_chars (cs : list char) :
  join [] (map (fun c => [c]) cs) = cs.
Proof.
  induction cs as [|c r IH]; [reflexivity|].
  change (map (fun c => [c]) (c :: r)) with ([c] :: map (fun c => [c]) r).
  destruct r as [|d r]; [reflexivity|].
  change (join [] ([c] :: map (fun c => [c]) (d :: r)))
    with ([c] ++ [] ++ join [] (map (fun c => [c]) (d :: r))).
  rewrite IH. reflexivity.
Qed.

Lemma bytes_ok (ints : list Z) :
  Forall (fun i => is_byte i = true) ints -> bytes ints = Ok ints.
Proof.
  intros H. unfold bytes.
  rewrite (collect_pure _ (fun i => i)).
  - now rewrite map_id.
  - rewrite Forall_forall in H. intros i Hi. now rewrite (H i Hi).
Qed.

Lemma is_byte_range (b : Z) : is_byte b = true <-> 0 <= b < 256.
Proof. unfold is_byte. rewrite andb_true_iff, Z.leb_le, Z.ltb_lt. tauto. Qed.

Lemma in_block_range (c : char) :
  in_block c = true <-> 0x2800 <= ord c <= 0x28FF.
Proof. unfold in_block. rewrite andb_true_iff, !Z.leb_le. tauto. Qed.

(** ** The 256 bytes, one by one *)

Lemma all_bytes_spec (b : Z) : In b all_bytes <-> is_byte b = true.
Proof.
  unfold all_bytes. rewrite in_map_iff, is_byte_range. split.
  - intros (n & <- & Hn). apply in_seq in Hn. lia.
  - intros Hb. exists (Z.to_nat b). rewrite in_seq. lia.
Qed.

Lemma for_all_bytes (P : Z -> bool) :
  forallb P all_bytes = true -> forall b, is_byte b = true -> P b = true.
Proof.
  intros H b Hb. rewrite forallb_forall in H. now apply H, all_bytes_spec.
Qed.

(** Proves [P b = true] for a byte [b] by running [P] on the 256 of them. *)
Ltac by_bytes P b Hb :=
  apply (for_all_bytes P (ltac:(vm_compute; reflexivity)) b Hb).

(** ** Only the low eight bits count *)

Lemma land_low8 (x m : Z) :
  Z.land 255 m = m -> Z.land x m = Z.land (x mod 256) m.
Proof.
  intros Hm. change 256 with (2 ^ 8).
  rewrite <- Z.land_ones by lia. change (Z.ones 8) with 255.
  now rewrite <- Z.land_assoc, Hm.
Qed.

Lemma shuffle_mod (x : Z) : shuffle x = shuffle (x mod 256).
Proof. unfold shuffle. now rewrite !(land_low8 x) by reflexivity. Qed.

Lemma unshuffle_mod (x : Z) : unshuffle x = unshuffle (x mod 256).
Proof. unfold unshuffle. now rewrite !(land_low8 x) by reflexivity. Qed.

Lemma mod_is_byte (x : Z) : is_byte (x mod 256) = true.
Proof. apply is_byte_range, Z.mod_pos_bound. lia. Qed.

Lemma shuffle_is_byte (x : Z) : is_byte (shuffle x) = true.
Proof.
  rewrite shuffle_mod. generalize (x mod 256), (mod_is_byte x).
  intros b Hb. by_bytes (fun b => is_byte (shuffle b)) b Hb.
Qed.

Lemma unshuffle_is_byte (x : Z) : is_byte (unshuffle x) = true.
Proof.
  rewrite unshuffle_mod. generalize (x mod 256), (mod_is_byte x).
  intros b Hb. by_bytes (fun b => is_byte (unshuffle b)) b Hb.
Qed.

Lemma unshuffle_shuffle_byte (b : Z) :
  is_byte b = true -> unshuffle (shuffle b) = b.
Proof.
  intros Hb. apply Z.eqb_eq.
  by_bytes (fun b => unshuffle (shuffle b) =? b) b Hb.
Qed.

Lemma shuffle_unshuffle_byte (b : Z) :
  is_byte b = true -> shuffle (unshuffle b) = b.
Proof.
  intros Hb. apply Z.eqb_eq.
  by_bytes (fun b => shuffle (unshuffle b) =? b) b Hb.
Qed.

Lemma unshuffle_shuffle (x : Z) : unshuffle (shuffle x) = x mod 256.
Proof.
  rewrite shuffle_mod. apply unshuffle_shuffle_byte, mod_is_byte.
Qed.

Lemma shuffle_unshuffle (x : Z) : shuffle (unshuffle x) = x mod 256.
Proof.
  rewrite unshuffle_mod. apply shuffle_unshuffle_byte, mod_is_byte.
Qed.

(** ** What the two conversions compute *)

Lemma code_point_in_block (x : Z) :
  in_block (BRAILLE_START_POINT + shuffle x) = true.
Proof.
  pose proof (shuffle_is_byte x) as H. apply is_byte_range in H.
  apply in_block_range. unfold ord, BRAILLE_START_POINT. lia.
Qed.

Lemma chr_braille (x : Z) :
  chr (BRAILLE_START_POINT + shuffle x) = Ok [BRAILLE_START_POINT + shuffle x].
Proof.
  pose proof (shuffle_is_byte x) as H. apply is_byte_range in H.
  unfold chr, is_code_point, BRAILLE_START_POINT.
  replace (0 <=? 0x2800 + shuffle x) with true by (symmetry; apply Z.leb_le; lia).
  replace (0x2800 + shuffle x <? 0x110000) with true
    by (symmetry; apply Z.ltb_lt; lia).
  reflexivity.
Qed.

Lemma brailleify_map (data : list Z) :
  brailleify data = Ok (map (fun b => BRAILLE_START_POINT + shuffle b) data).
Proof.
  unfold brailleify.
  rewrite (collect_pure _ (fun b => [BRAILLE_START_POINT + shuffle b]))
    by (intros b _; apply chr_braille).
  cbn [bind]. f_equal.
  rewrite <- (map_map (fun b => BRAILLE_START_POINT + shuffle b) (fun c => [c])).
  apply join_chars.
Qed.

Lemma unbrailleify_map (braille : str) :
  unbrailleify braille =
  Ok (map (fun c => unshuffle (ord c - BRAILLE_START_POINT)) braille).
Proof.
  unfold unbrailleify. apply bytes_ok, Forall_forall.
  intros i Hi. apply in_map_iff in Hi. destruct Hi as (c & <- & _).
  apply unshuffle_is_byte.
Qed.

Lemma offset_is_byte (c : char) :
  in_block c = true -> is_byte (ord c - BRAILLE_START_POINT) = true.
Proof.
  rewrite in_block_range, is_byte_range. unfold BRAILLE_START_POINT. lia.
Qed.

Lemma all_bytes_NoDup : NoDup all_bytes.
Proof.
  unfold all_bytes. apply Finite.Injective_map_NoDup.
  - intros m n. apply Nat2Z.inj.
  - apply seq_NoDup.
Qed.

Lemma moves_bitb_spec (f : Z -> Z) (b : Z) (p : Z * Z) :
  moves_bitb f b p = true <-> moves_bit f b p.
Proof. unfold moves_bitb, moves_bit. apply Bool.eqb_true_iff. Qed.

(** ** The claims *)

(** C1. Round trip from bytes: for every sequence [S] of bytes (integers in
    0..255), encoding [S] succeeds and decoding the string it gives returns
    exactly [S]. *)
Theorem unbrailleify_brailleify (S : list Z) :
  Forall (fun b => is_byte b = true) S ->
  (t <- brailleify S ;; unbrailleify t) = Ok S.
Proof.
  intros HS. rewrite brailleify_map. cbn [bind].
  rewrite unbrailleify_map, map_map. apply (f_equal Ok).
  rewrite <- (map_id S) at 2. apply map_ext_in.
  intros b Hb. rewrite Forall_forall in HS.
  cbv beta. unfold ord. rewrite Z.add_simpl_l.
  apply unshuffle_shuffle_byte, HS, Hb.
Qed.

Lemma unbrailleify_brailleify_witness :
  (t <- brailleify [bin "1000_1000"; bin "0001_0001"; 0; 255] ;;
   unbrailleify t)
  = Ok [bin "1000_1000"; bin "0001_0001"; 0; 255].
Proof.
  apply unbrailleify_brailleify. repeat constructor.
Defined.

(** C2, as the specification's table states it, fails: the byte
    [0b00000010] has bit 1 set and [shuffle] sets bit 5 of the result, not
    the bit 4 of the table. *)
Lemma shuffle_not_spec_table :
  is_byte (bin "00000010") = true /\
  shuffle (bin "00000010") = bin "00100000" /\
  ~ Forall (moves_bit shuffle (bin "00000010")) spec_table.
Proof.
  split; [reflexivity|]. split; [reflexivity|].
  intros H. rewrite Forall_forall in H.
  specialize (H (1, 4) (or_intror (or_introl eq_refl))).
  discriminate H.
Qed.

(** C2, amended. For every byte [b] in 0..255, [shuffle] moves each bit of
    [b] to the index given by [shuffle_table]: bit 0 to 7, 1 to 5, 2 to 4,
    4 to 6, 5 to 2, 6 to 1, 7 to 0, and 3 stays at 3. *)
Theorem shuffle_moves_bits (b : Z) :
  is_byte b = true -> Forall (moves_bit shuffle b) shuffle_table.
Proof.
  intros Hb. apply Forall_forall. intros p Hp. apply moves_bitb_spec.
  revert p Hp. apply forallb_forall.
  by_bytes (fun b => forallb (moves_bitb shuffle b) shuffle_table) b Hb.
Qed.

Lemma shuffle_moves_bits_witness :
  Forall (moves_bit shuffle (bin "00000010")) shuffle_table.
Proof. apply shuffle_moves_bits. reflexivity. Defined.

(** C3, as stated, fails: the string ['A'] has a character outside the
    Braille block and [unbrailleify] returns the byte 0x90 for it; nothing
    is raised. *)
Lemma unbrailleify_A_not_rejected :
  utf8 "A" = Some [0x41] /\
  Exists (fun c => in_block c = false) (text "A") /\
  unbrailleify (text "A") = Ok [0x90] /\
  forall e, unbrailleify (text "A") <> Raise e.
Proof.
  split; [reflexivity|]. split; [left; reflexivity|].
  split; [reflexivity|]. intros e. discriminate.
Qed.

(** C3, amended. For every string with at least one character outside
    [0x2800, 0x28FF], [unbrailleify] does not fail: it returns one byte per
    character, none skipped and none cut off, and the byte of a character
    [c], inside the block or not, is [unshuffle] of
    [(ord c - 0x2800) mod 256]. *)
Theorem unbrailleify_outside_block (t : str) :
  Exists (fun c => in_block c = false) t ->
  exists bs,
    unbrailleify t = Ok bs /\
    List.length bs = List.length t /\
    forall i c, nth_error t i = Some c ->
      nth_error bs i = Some (unshuffle ((ord c - 0x2800) mod 256)).
Proof.
  intros _. eexists. split; [apply unbrailleify_map|].
  split; [apply length_map|].
  intros i c Hc. rewrite nth_error_map, Hc. cbn [option_map].
  f_equal. apply unshuffle_mod.
Qed.

Lemma unbrailleify_outside_block_witness :
  exists bs,
    unbrailleify [0x2809; 0x41] = Ok bs /\
    List.length bs = List.length [0x2809; 0x41] /\
    forall i c, nth_error [0x2809; 0x41] i = Some c ->
      nth_error bs i = Some (unshuffle ((ord c - 0x2800) mod 256)).
Proof.
  apply unbrailleify_outside_block. right. left. reflexivity.
Defined.

(** C4. On the bytes 0..255 [unshuffle] undoes [shuffle] and [shuffle]
    undoes [unshuffle]; [shuffle] sends distinct bytes to distinct bytes,
    and its values on 0..255 are 0..255 in another order. *)
Theorem shuffle_permutation :
  (forall b, is_byte b = true ->
     unshuffle (shuffle b) = b /\ shuffle (unshuffle b) = b) /\
  (forall a b, is_byte a = true -> is_byte b = true ->
     shuffle a = shuffle b -> a = b) /\
  Permutation (map shuffle all_bytes) all_bytes.
Proof.
  split; [|split].
  - intros b Hb.
    split; [apply unshuffle_shuffle_byte | apply shuffle_unshuffle_byte];
      exact Hb.
  - intros a b Ha Hb Hab.
    rewrite <- (unshuffle_shuffle_byte a Ha), Hab.
    apply unshuffle_shuffle_byte, Hb.
  - symmetry. apply NoDup_Permutation_bis.
    + apply all_bytes_NoDup.
    + rewrite length_map. apply Nat.le_refl.
    + intros b Hb. apply all_bytes_spec in Hb.
      apply in_map_iff. exists (unshuffle b).
      split; [apply shuffle_unshuffle_byte, Hb|].
      apply all_bytes_spec, unshuffle_is_byte.
Qed.

Lemma shuffle_permutation_witness :
  (unshuffle (shuffle (bin "1100_1001")) = bin "1100_1001" /\
   shuffle (unshuffle (bin "1100_1001")) = bin "1100_1001") /\
  (shuffle (bin "1100_1001") = shuffle 201 -> bin "1100_1001" = 201).
Proof.
  destruct shuffle_permutation as (Hinv & Hinj & _). split.
  - apply Hinv. reflexivity.
  - apply Hinj; reflexivity.
Defined.

(** C5. The doctest vectors: the three byte sequences encode to the three
    Braille strings of the docstring, and the first string decodes to the
    four bytes it was made from. *)
Theorem doctest_vectors :
  brailleify [bin "1000_1000"; bin "0001_0001"; bin "1111_0000"; bin "0000_1111"]
    = Ok (text "⠉⣀⡇⢸") /\
  brailleify [bin "1010_1010"; bin "0101_0101"; bin "1111_0110"; bin "0110_1111"]
    = Ok (text "⠭⣒⡷⢾") /\
  brailleify [bin "1100_1001"; bin "1001_1100"; bin "1001_0011"; bin "0011_1001"]
    = Ok (text "⢋⡙⣡⣌") /\
  unbrailleify (text "⠉⣀⡇⢸")
    = Ok [bin "1000_1000"; bin "0001_0001"; bin "1111_0000"; bin "0000_1111"] /\
  utf8 "⠉⣀⡇⢸" = Some [0x2809; 0x28C0; 0x2847; 0x28B8] /\
  utf8 "⠭⣒⡷⢾" = Some [0x282D; 0x28D2; 0x2877; 0x28BE] /\
  utf8 "⢋⡙⣡⣌" = Some [0x288B; 0x2859; 0x28E1; 0x28CC].
Proof. repeat split; vm_compute; reflexivity. Qed.

(** C6. Both conversions work element by element and keep the order: the
    string for the bytes [S] has one character per byte, the one at index
    [i] having code point [0x2800 + shuffle (S[i])]; the bytes for a string
    [t] of Braille characters are one per character, the one at index [i]
    being [unshuffle (ord (t[i]) - 0x2800)]. *)
Theorem elementwise :
  (forall S, Forall (fun b => is_byte b = true) S ->
     exists t,
       brailleify S = Ok t /\
       List.length t = List.length S /\
       forall i b, nth_error S i = Some b ->
         exists c, nth_error t i = Some c /\ ord c = 0x2800 + shuffle b) /\
  (forall t, Forall (fun c => in_block c = true) t ->
     exists bs,
       unbrailleify t = Ok bs /\
       List.length bs = List.length t /\
       forall i c, nth_error t i = Some c ->
         nth_error bs i = Some (unshuffle (ord c - 0x2800))).
Proof.
  split.
  - intros S _. eexists. split; [apply brailleify_map|].
    split; [apply length_map|].
    intros i b Hb. eexists. rewrite nth_error_map, Hb. split; reflexivity.
  - intros t _. eexists. split; [apply unbrailleify_map|].
    split; [apply length_map|].
    intros i c Hc. rewrite nth_error_map, Hc. reflexivity.
Qed.

Lemma elementwise_witness :
  (exists t,
     brailleify [bin "1000_1000"; bin "0001_0001"] = Ok t /\
     List.length t = 2%nat /\
     forall i b, nth_error [bin "1000_1000"; bin "0001_0001"] i = Some b ->
       exists c, nth_error t i = Some c /\ ord c = 0x2800 + shuffle b) /\
  (exists bs,
     unbrailleify [0x2809; 0x28C0] = Ok bs /\
     List.length bs = 2%nat /\
     forall i c, nth_error [0x2809; 0x28C0] i = Some c ->
       nth_error bs i = Some (unshuffle (ord c - 0x2800))).
Proof.
  destruct elementwise as [Henc Hdec]. split.
  - apply (Henc [bin "1000_1000"; bin "0001_0001"]). repeat constructor.
  - apply (Hdec [0x2809; 0x28C0]). repeat constructor.
Defined.

(** C7. For every byte [b], [0 <= shuffle b <= 255]; and for every sequence
    of bytes, every character of the string [brailleify] returns has its
    code point in [0x2800, 0x28FF]. *)
Theorem shuffle_range :
  (forall b, is_byte b = true -> 0 <= shuffle b <= 255) /\
  (forall S, Forall (fun b => is_byte b = true) S ->
     exists t,
       brailleify S = Ok t /\
       Forall (fun c => 0x2800 <= ord c <= 0x28FF) t).
Proof.
  split.
  - intros b _. pose proof (shuffle_is_byte b) as H.
    apply is_byte_range in H. lia.
  - intros S _. eexists. split; [apply brailleify_map|].
    apply Forall_forall. intros c Hc.
    apply in_map_iff in Hc. destruct Hc as (b & <- & _).
    apply in_block_range, code_point_in_block.
Qed.

Lemma shuffle_range_witness :
  0 <= shuffle 255 <= 255 /\
  exists t,
    brailleify [0; 255; bin "1010_1010"] = Ok t /\
    Forall (fun c => 0x2800 <= ord c <= 0x28FF) t.
Proof.
  destruct shuffle_range as [Hb HS]. split.
  - apply Hb. reflexivity.
  - apply HS. repeat constructor.
Defined.

(** C8. Empty input: [brailleify] of no bytes is the empty string, and
    [unbrailleify] of the empty string is no bytes. *)
Theorem empty_input :
  brailleify [] = Ok (text EmptyString) /\
  unbrailleify (text EmptyString) = Ok [].
Proof. split; reflexivity. Qed.

(** C9. Round trip from text: for every string [t] whose characters are all
    in [0x2800, 0x28FF], decoding [t] succeeds and encoding the bytes it
    gives returns exactly [t]. *)
Theorem brailleify_unbrailleify (t : str) :
  Forall (fun c => in_block c = true) t ->
  (bs <- unbrailleify t ;; brailleify bs) = Ok t.
Proof.
  intros Ht. rewrite unbrailleify_map. cbn [bind].
  rewrite brailleify_map, map_map. apply (f_equal Ok).
  rewrite <- (map_id t) at 2. apply map_ext_in.
  intros c Hc. rewrite Forall_forall in Ht. cbv beta.
  rewrite shuffle_unshuffle_byte by (apply offset_is_byte, Ht, Hc).
  unfold ord. lia.
Qed.

Lemma brailleify_unbrailleify_witness :
  (bs <- unbrailleify [0x2809; 0x28C0; 0x2800; 0x28FF] ;; brailleify bs)
  = Ok [0x2809; 0x28C0; 0x2800; 0x28FF].
Proof.
  apply brailleify_unbrailleify. repeat constructor.
Defined.

(** C10. [unbrailleify] returns for every string, never raising: one byte
    per character, and the byte of a character [c] depends only on
    [(ord c - 0x2800) mod 256], so that a character outside the Braille
    block gets the byte of the character of the block that agrees with it
    modulo 256 and is not rejected. *)
Theorem unbrailleify_total :
  (forall t : str,
     exists bs,
       unbrailleify t = Ok bs /\
       List.length bs = List.length t /\
       forall i c, nth_error t i = Some c ->
         nth_error bs i = Some (unshuffle ((ord c - 0x2800) mod 256))) /\
  (forall c d : char,
     (ord c - 0x2800) mod 256 = (ord d - 0x2800) mod 256 ->
     unshuffle (ord c - 0x2800) = unshuffle (ord d - 0x2800) /\
     unbrailleify [c] = unbrailleify [d]).
Proof.
  assert (Hdep : forall c d : char,
             (ord c - 0x2800) mod 256 = (ord d - 0x2800) mod 256 ->
             unshuffle (ord c - 0x2800) = unshuffle (ord d - 0x2800)).
  { intros c d Hcd.
    rewrite (unshuffle_mod (ord c - _)), (unshuffle_mod (ord d - _)).
    now rewrite Hcd. }
  split.
  - intros t. eexists. split; [apply unbrailleify_map|].
    split; [apply length_map|].
    intros i c Hc. rewrite nth_error_map, Hc. cbn [option_map].
    apply (f_equal Some), unshuffle_mod.
  - intros c d Hcd. split; [apply Hdep, Hcd|].
    rewrite !unbrailleify_map. cbn [map].
    unfold BRAILLE_START_POINT. now rewrite (Hdep c d Hcd).
Qed.

Lemma unbrailleify_total_witness :
  unshuffle (ord 0x41 - 0x2800) = unshuffle (ord 0x2841 - 0x2800) /\
  unbrailleify [0x41] = unbrailleify [0x2841].
Proof.
  destruct unbrailleify_total as [_ Hdep].
  apply (Hdep 0x41 0x2841). reflexivity.
Defined.

(** ** Beyond bytes: any integer, any string *)

Lemma testbit_low8 (x k : Z) :
  0 <= k < 8 -> Z.testbit (x mod 256) k = Z.testbit x k.
Proof. intros Hk. change 256 with (2 ^ 8). apply Z.mod_pow2_bits_low. lia. Qed.

(** A table of bit moves that holds on the 256 bytes holds on every
    integer, when [f] reads the low eight bits only. *)
Lemma moves_bits_any (f : Z -> Z) (table : list (Z * Z)) :
  (forall x, f x = f (x mod 256)) ->
  forallb (fun p => (0 <=? fst p) && (fst p <? 8)) table = true ->
  forallb (fun b => forallb (moves_bitb f b) table) all_bytes = true ->
  forall x, Forall (moves_bit f x) table.
Proof.
  intros Hf Hlow Hall x. apply Forall_forall. intros p Hp.
  rewrite forallb_forall in Hlow. specialize (Hlow p Hp).
  apply andb_true_iff in Hlow. destruct Hlow as [H0 H8].
  apply Z.leb_le in H0. apply Z.ltb_lt in H8.
  unfold moves_bit. rewrite Hf, <- (testbit_low8 x (fst p)) by lia.
  apply (moves_bitb_spec f (x mod 256) p).
  pose proof (for_all_bytes _ Hall (x mod 256) (mod_is_byte x)) as Hb.
  rewrite forallb_forall in Hb. apply Hb, Hp.
Qed.

Lemma high_bits_clear (y n : Z) :
  is_byte y = true -> 8 <= n -> Z.testbit y n = false.
Proof.
  intros Hy Hn. apply is_byte_range in Hy.
  rewrite <- (Z.mod_small y (2 ^ 8)) by (change (2 ^ 8) with 256; lia).
  apply Z.mod_pow2_bits_high. lia.
Qed.

(** X1. Whatever the integer, negative or above 255, only its low eight
    bits count: [shuffle] and [unshuffle] give the same as on [x mod 256],
    and each undoes the other up to that reduction. *)
Theorem shuffle_unshuffle_any_integer (x : Z) :
  shuffle x = shuffle (x mod 256) /\
  unshuffle x = unshuffle (x mod 256) /\
  unshuffle (shuffle x) = x mod 256 /\
  shuffle (unshuffle x) = x mod 256.
Proof.
  repeat split.
  - apply shuffle_mod.
  - apply unshuffle_mod.
  - apply unshuffle_shuffle.
  - apply shuffle_unshuffle.
Qed.

(** X2. For every integer [x], [unshuffle] moves the bits the way back:
    bit 7 to 0, 5 to 1, 4 to 2, 6 to 4, 2 to 5, 1 to 6, 0 to 7, and 3
    stays; no bit from index 8 on is set in the result. *)
Theorem unshuffle_moves_bits (x : Z) :
  Forall (moves_bit unshuffle x) unshuffle_table /\
  forall n, 8 <= n -> Z.testbit (unshuffle x) n = false.
Proof.
  split.
  - apply moves_bits_any; [apply unshuffle_mod | reflexivity |].
    vm_compute. reflexivity.
  - intros n. apply high_bits_clear, unshuffle_is_byte.
Qed.

Lemma unshuffle_moves_bits_witness :
  Z.testbit (unshuffle (bin "0100_0000" - 0x2800)) 4 = true /\
  Z.testbit (unshuffle (bin "0100_0000" - 0x2800)) 8 = false.
Proof.
  destruct (unshuffle_moves_bits (bin "0100_0000" - 0x2800)) as [Htab Hhigh].
  split.
  - rewrite Forall_forall in Htab.
    apply (Htab (6, 4)). right. right. right. left. reflexivity.
  - apply Hhigh. lia.
Defined.

(** X3. [shuffle] of a bitwise or is the bitwise or of the [shuffle]s, and
    the same for [unshuffle]: laying two bytes over each other lays their
    dots over each other. *)
Theorem shuffle_lor (a b : Z) :
  shuffle (Z.lor a b) = Z.lor (shuffle a) (shuffle b) /\
  unshuffle (Z.lor a b) = Z.lor (unshuffle a) (unshuffle b).
Proof.
  split.
  - unfold shuffle.
    rewrite !Z.land_lor_distr_l, !Z.shiftl_lor, !Z.shiftr_lor.
    apply Z.bits_inj'. intros n _. rewrite !Z.lor_spec. btauto.
  - unfold unshuffle.
    rewrite !Z.land_lor_distr_l, !Z.shiftl_lor, !Z.shiftr_lor.
    apply Z.bits_inj'. intros n _. rewrite !Z.lor_spec. btauto.
Qed.

(** X4. The number of dots is the number of bits: [shuffle x] has as many
    bits set as [x] has among its low eight, and so has [unshuffle x]. *)
Theorem shuffle_keeps_ones (x : Z) :
  ones (shuffle x) = ones x /\ ones (unshuffle x) = ones x.
Proof.
  assert (Hlow : ones (x mod 256) = ones x)
    by (unfold ones, filter; now rewrite !testbit_low8 by lia).
  rewrite <- Hlow, shuffle_mod, unshuffle_mod.
  split; apply Nat.eqb_eq.
  - apply (for_all_bytes (fun b => Nat.eqb (ones (shuffle b)) (ones b))
             ltac:(vm_compute; reflexivity)), mod_is_byte.
  - apply (for_all_bytes (fun b => Nat.eqb (ones (unshuffle b)) (ones b))
             ltac:(vm_compute; reflexivity)), mod_is_byte.
Qed.

Lemma mod_mod_256 (x : Z) : (x mod 256) mod 256 = x mod 256.
Proof. apply Z.mod_mod. lia. Qed.

Lemma offset_mod (c : char) :
  (ord c - BRAILLE_START_POINT) mod 256 = ord c mod 256.
Proof.
  unfold BRAILLE_START_POINT. change 0x2800 with (40 * 256).
  rewrite <- Z.add_opp_r, <- Z.mul_opp_l. apply Z.mod_add. lia.
Qed.

Lemma unbrailleify_brailleify_any (data : list Z) :
  unbrailleify (map (fun b => BRAILLE_START_POINT + shuffle b) data)
  = Ok (map (fun x => x mod 256) data).
Proof.
  rewrite unbrailleify_map, map_map. apply (f_equal Ok), map_ext.
  intros x. unfold ord. rewrite Z.add_simpl_l. apply unshuffle_shuffle.
Qed.

Lemma brailleify_low8 (data : list Z) :
  brailleify (map (fun x => x mod 256) data) = brailleify data.
Proof.
  rewrite !brailleify_map, map_map. apply (f_equal Ok), map_ext.
  intros x. now rewrite <- shuffle_mod.
Qed.

Lemma unbrailleify_low8 (t : str) :
  unbrailleify t = Ok (map (fun c => unshuffle (ord c mod 256)) t).
Proof.
  rewrite unbrailleify_map. apply (f_equal Ok), map_ext.
  intros c. now rewrite unshuffle_mod, offset_mod.
Qed.

Lemma low_bytes_back (t : str) :
  map (fun c => ord c mod 256) t
  = map shuffle (map (fun c => unshuffle (ord c mod 256)) t).
Proof.
  rewrite map_map. apply map_ext. intros c.
  now rewrite shuffle_unshuffle, mod_mod_256.
Qed.

Lemma Ok_inj {A : Type} (a b : A) : Ok a = Ok b -> a = b.
Proof. now intros [= ->]. Qed.

(** X5. [brailleify] takes any integers and never raises: each one counts
    by its low eight bits only (256 is encoded like 0, -1 like 255), the
    string has one character of the Braille block per integer, and
    decoding it gives the integers reduced modulo 256. *)
Theorem brailleify_any_integers (data : list Z) :
  exists t,
    brailleify data = Ok t /\
    brailleify (map (fun x => x mod 256) data) = Ok t /\
    List.length t = List.length data /\
    forallb in_block t = true /\
    unbrailleify t = Ok (map (fun x => x mod 256) data).
Proof.
  eexists. split; [apply brailleify_map|]. split; [|split; [|split]].
  - rewrite brailleify_low8. apply brailleify_map.
  - apply length_map.
  - apply forallb_forall. intros c Hc. apply in_map_iff in Hc.
    destruct Hc as (x & <- & _). apply code_point_in_block.
  - apply unbrailleify_brailleify_any.
Qed.

(** X6. Decoding any string and encoding the bytes again moves every
    character into the Braille block and keeps the low byte of its code
    point: the character [c] becomes the one at [0x2800 + ord c mod 256]. *)
Theorem brailleify_unbrailleify_any_string (t : str) :
  (bs <- unbrailleify t ;; brailleify bs)
  = Ok (map (fun c => 0x2800 + ord c mod 256) t).
Proof.
  rewrite unbrailleify_map. cbn [bind].
  rewrite brailleify_map, map_map. apply (f_equal Ok), map_ext.
  intros c. rewrite shuffle_unshuffle, offset_mod. reflexivity.
Qed.

(** X7. Both conversions go through concatenation: converting [a ++ b] is
    converting [a] and [b] and putting the results one after the other. *)
Theorem conversions_of_concatenation :
  (forall a b : list Z,
     brailleify (a ++ b)
     = (x <- brailleify a ;; y <- brailleify b ;; Ok (x ++ y))) /\
  (forall s t : str,
     unbrailleify (s ++ t)
     = (x <- unbrailleify s ;; y <- unbrailleify t ;; Ok (x ++ y))).
Proof.
  split.
  - intros a b. rewrite !brailleify_map. cbn [bind]. now rewrite map_app.
  - intros s t. rewrite !unbrailleify_map. cbn [bind]. now rewrite map_app.
Qed.

(** X8. Two sequences of integers get the same Braille string exactly when
    they agree modulo 256 item by item, and two strings get the same bytes
    exactly when their code points agree modulo 256 character by
    character.  So [brailleify] is one-to-one on sequences of bytes, and
    [unbrailleify] on strings of the Braille block. *)
Theorem same_conversion_iff :
  (forall a b : list Z,
     brailleify a = brailleify b <->
     map (fun x => x mod 256) a = map (fun x => x mod 256) b) /\
  (forall s t : str,
     unbrailleify s = unbrailleify t <->
     map (fun c => ord c mod 256) s = map (fun c => ord c mod 256) t).
Proof.
  split.
  - intros a b. split; intros H.
    + apply Ok_inj. rewrite <- !unbrailleify_brailleify_any.
      rewrite !brailleify_map in H. now rewrite (Ok_inj _ _ H).
    + now rewrite <- (brailleify_low8 a), <- (brailleify_low8 b), H.
  - intros s t. split; intros H.
    + rewrite !unbrailleify_low8 in H. apply Ok_inj in H.
      rewrite (low_bytes_back s), (low_bytes_back t). now rewrite H.
    + rewrite !unbrailleify_low8.
      rewrite <- !(map_map (fun c => ord c mod 256) unshuffle). now rewrite H.
Qed.

Lemma same_conversion_iff_witness :
  brailleify [256; -1] = brailleify [0; 255] /\
  unbrailleify [0x41; 0x2800] = unbrailleify [0x2841; 0].
Proof.
  destruct same_conversion_iff as [Henc Hdec]. split.
  - apply Henc. reflexivity.
  - apply Hdec. reflexivity.
Defined.

(** X9. The layout of the docstring is the one that comes out: for every
    integer [x], [brailleify [x]] is one character of the row 0x28 of
    Unicode, and its dots 1 4 / 2 5 / 3 6 / 7 8 are raised exactly when the
    bits 8 4 / 7 3 / 6 2 / 5 1 of [x] are set. *)
Theorem brailleify_docstring_layout (x : Z) :
  exists c,
    brailleify [x] = Ok [c] /\
    ord c / 256 = 0x28 /\
    Forall (shows_bit c x) docstring_layout.
Proof.
  exists (BRAILLE_START_POINT + shuffle x).
  split; [apply brailleify_map|]. split.
  - pose proof (shuffle_is_byte x) as H. apply is_byte_range in H.
    unfold ord, BRAILLE_START_POINT. change 0x2800 with (0x28 * 256).
    rewrite Z.div_add_l by lia. rewrite Z.div_small by lia. lia.
  - pose proof
      (moves_bits_any (fun y => BRAILLE_START_POINT + shuffle y)
         (map (fun p => (snd p - 1, fst p - 1)) docstring_layout)
         (fun y => f_equal (Z.add BRAILLE_START_POINT) (shuffle_mod y))
         eq_refl ltac:(vm_compute; reflexivity) x) as H.
    rewrite Forall_map in H. exact H.
Qed.

(** ** The animation *)

Lemma last_cons {A : Type} (x d : A) (l : list A) :
  last (x :: l) d = last l x.
Proof.
  revert x d. induction l as [|y l IH]; intros x d; [reflexivity|].
  change (last (x :: y :: l) d) with (last (y :: l) d).
  now rewrite (IH y d), (IH y x).
Qed.

Lemma last_last {A : Type} (d : A) (l : list A) :
  last l (last l d) = last l d.
Proof.
  destruct l as [|x l]; [reflexivity|]. now rewrite !last_cons.
Qed.

Lemma body_frames (prev cell : Z) :
  Demo.body prev cell = (Demo.frames prev cell, Ok cell).
Proof.
  unfold Demo.body. rewrite !brailleify_map.
  destruct (shuffle_lor cell prev) as [Hlor _].
  unfold Demo.frames. rewrite <- Hlor. reflexivity.
Qed.


Lemma loop_app (prev : Z) (a b : list Z) :
  fst (Demo.loop prev (a ++ b))
  = fst (Demo.loop prev a) ++ fst (Demo.loop (last a prev) b).
Proof.
  revert prev. induction a as [|x a IH]; intros prev; [reflexivity|].
  rewrite last_cons. cbn [app Demo.loop].
  rewrite body_frames. cbn [Demo.io_bind].
  rewrite (surjective_pairing (Demo.loop x (a ++ b))).
  rewrite (surjective_pairing (Demo.loop x a)).
  cbn [fst]. rewrite IH. apply app_assoc.
Qed.



Lemma replay_restart {A : Type} (saved : list A) (n : nat) :
  Demo.replay saved [] n = Demo.replay saved saved n.
Proof. destruct n, saved; reflexivity. Qed.

Lemma replay_pass {A : Type} (saved cur : list A) (m : nat) :
  Demo.replay saved cur (List.length cur + m)%nat
  = cur ++ Demo.replay saved [] m.
Proof.
  induction cur as [|x r IH]; [reflexivity|].
  cbn [List.length Nat.add Demo.replay app]. now rewrite IH.
Qed.

Lemma cycle_rounds {A : Type} (xs : list A) (k : nat) :
  Demo.cycle xs (List.length xs * k) = List.concat (repeat xs k).
Proof.
  unfold Demo.cycle. induction k as [|k IH].
  - rewrite Nat.mul_0_r. reflexivity.
  - replace (List.length xs * S k)%nat
      with (List.length xs + List.length xs * k)%nat by lia.
    rewrite replay_pass, replay_restart, IH. reflexivity.
Qed.

Lemma loop_rounds (p : Z) (xs : list Z) (k : nat) :
  last xs p = p ->
  fst (Demo.loop p (List.concat (repeat xs k)))
  = List.concat (repeat (fst (Demo.loop p xs)) k).
Proof.
  intros Hp. induction k as [|k IH]; [reflexivity|].
  cbn [repeat List.concat]. now rewrite loop_app, Hp, IH.
Qed.






(** X12. After its first eight passes the animation repeats itself: the
    events of [8 * (k + 1)] passes are those of the first eight followed
    by [k] times the same 32 events, those of a round that starts with
    [prev] the last cell of [seq]; the first round is another one, as it
    starts with [prev = 0]. *)
Theorem main_repeats (k : nat) :
  fst (Demo.main (8 * (k + 1)))
  = fst (Demo.main 8)
    ++ List.concat (repeat (fst (Demo.loop (last Demo.seq 0) Demo.seq)) k) /\
  List.length (fst (Demo.loop (last Demo.seq 0) Demo.seq)) = 32%nat /\
  fst (Demo.main 8) <> fst (Demo.loop (last Demo.seq 0) Demo.seq).
Proof.
  split; [|split].
  - unfold Demo.main.
    change 8%nat with (List.length Demo.seq).
    rewrite cycle_rounds, Nat.add_1_r. cbn [repeat List.concat].
    rewrite loop_app, loop_rounds by apply last_last.
    reflexivity.
  - reflexivity.
  - vm_compute. discriminate.
Qed.
